(** * The reactive core of socket-app: [ref] and [reactive]

    A shallow embedding of the two primitives of the reactive module
    ([ref], with its deep proxy [createProxy], and [reactive], with the
    class [Reactive]) and the properties of their change notification. *)

From stdpp Require Import gmap strings list fin_maps.
From Stdlib Require Import ZArith NArith Lia.

Open Scope Z_scope.

(** ** Values and the object heap *)

(** Property keys are [string | symbol]. *)
Inductive key :=
  | KStr (s : string)
  | KSym (n : nat).

#[global] Instance key_eq_dec : EqDecision key.
Proof. solve_decision. Defined.

#[global] Instance key_countable : Countable key.
Proof.
  refine (inj_countable'
    (λ k, match k with KStr s => inl s | KSym n => inr n end)
    (λ x, match x with inl s => KStr s | inr n => KSym n end) _).
  by intros [].
Defined.

Coercion KStr : string >-> key.

Abbreviation loc := positive.

(** Run-time values.  [VObj l] is a reference to a plain object of the heap,
    [VProxy t p] a proxy built by [createProxy(t, p)] and [VHandle w] the
    outer proxy that [ref] returns over its wrapper object [w].  The
    identity of a proxy object is not part of the model: two proxies over
    the same target with the same path are the same value. *)
Inductive val :=
  | VUndef
  | VNull
  | VBool (b : bool)
  | VNum (n : Z)
  | VStr (s : string)
  | VObj (l : loc)
  | VProxy (target : val) (path : list key)
  | VHandle (w : loc).

#[global] Instance val_eq_dec : EqDecision val.
Proof. solve_decision. Defined.

(** An own data property with the two attributes the mutations look at. *)
Record prop := Prop_ {
  pvalue : val;
  writable : bool;
  configurable : bool
}.

(** A plain object: own data properties and the extensible flag.  Accessor
    properties, prototypes and exotic objects (arrays) are left out. *)
Record obj := Obj {
  props : gmap key prop;
  extensible : bool
}.

Abbreviation heap := (gmap loc obj).

(** What an object literal builds: every property writable and
    configurable, the object extensible. *)
Definition literal (fields : list (key * val)) : obj :=
  Obj (list_to_map (map (λ kv, (kv.1, Prop_ kv.2 true true)) fields)) true.

Definition alloc (h : heap) (o : obj) : loc * heap :=
  let l := fresh (dom h) in (l, <[l := o]> h).

(** [Reflect.get], [Reflect.set] and [Reflect.deleteProperty] on a plain
    object (receiver = target, data properties only). *)
Definition ordinary_get (h : heap) (l : loc) (k : key) : val :=
  match h !! l with
  | Some o => match props o !! k with
              | Some p => pvalue p
              | None => VUndef
              end
  | None => VUndef
  end.

Definition ordinary_set (h : heap) (l : loc) (k : key) (v : val)
  : bool * heap :=
  match h !! l with
  | Some o =>
      match props o !! k with
      | Some p =>
          if writable p
          then (true,
                <[l := Obj (<[k := Prop_ v true (configurable p)]> (props o))
                           (extensible o)]> h)
          else (false, h)
      | None =>
          if extensible o
          then (true,
                <[l := Obj (<[k := Prop_ v true true]> (props o)) true]> h)
          else (false, h)
      end
  | None => (false, h)
  end.

Definition ordinary_delete (h : heap) (l : loc) (k : key) : bool * heap :=
  match h !! l with
  | Some o =>
      match props o !! k with
      | Some p =>
          if configurable p
          then (true, <[l := Obj (delete k (props o)) (extensible o)]> h)
          else (false, h)
      | None => (true, h)
      end
  | None => (false, h)
  end.

(** ** Change events *)

Inductive OperationType := OpSet | OpDelete.

#[global] Instance OperationType_eq_dec : EqDecision OperationType.
Proof. solve_decision. Defined.

(** [newValue] is absent from the event of a deletion; [oldValue] is always
    a field of the event (holding [undefined] when the key was absent). *)
Record ChangeEvent := mkEvent {
  operation : OperationType;
  path : list key;
  target : val;
  newValue : option val;
  oldValue : val
}.

#[global] Instance ChangeEvent_eq_dec : EqDecision ChangeEvent.
Proof. solve_decision. Defined.

(** ** [ref] *)

(** [isObject]: [val !== null && typeof val === 'object']. *)
Definition isObject (v : val) : bool :=
  match v with
  | VObj _ | VProxy _ _ | VHandle _ => true
  | _ => false
  end.

Section Ref.

(** Whether [ref] was given a callback.  The callback is an observer: each
    call of it is recorded, in order, in the list of events an operation
    returns; it returns normally and leaves the heap alone. *)
Variable callback : bool.

Definition notify (e : ChangeEvent) : list ChangeEvent :=
  if callback then [e] else [].

(** [isObject(x) ? createProxy(x) : x], the path defaulting to []. *)
Definition wrap (x : val) : val :=
  if isObject x then VProxy x [] else x.

(** Reading property [k] of a value: a plain object, the [get] trap of
    [createProxy], or the [get] trap of the outer proxy. *)
Fixpoint get_val (h : heap) (v : val) (k : key) : val :=
  match v with
  | VObj l => ordinary_get h l k
  | VProxy t p =>
      if decide (k = KStr "value") then t
      else
        let value := get_val h t k in
        if isObject value then VProxy value (p ++ [k]) else value
  | VHandle w =>
      if decide (k = KStr "value") then ordinary_get h w (KStr "value")
      else VUndef
  | _ => VUndef
  end.

(** Writing property [k] of a value: the result of the operation, the
    heap after it and the calls of the callback it made. *)
Fixpoint set_val (h : heap) (v : val) (k : key) (newValue : val)
  : bool * heap * list ChangeEvent :=
  match v with
  | VObj l =>
      let '(result, h') := ordinary_set h l k newValue in (result, h', [])
  | VProxy t p =>
      let oldValue := get_val h t k in
      let '(result, h', inner) := set_val h t k newValue in
      (result, h',
       inner ++
       (if result
        then notify (mkEvent OpSet (p ++ [k]) t (Some newValue) oldValue)
        else []))
  | VHandle w =>
      if decide (k = KStr "value") then
        let oldValue := ordinary_get h w (KStr "value") in
        let h' := (ordinary_set h w (KStr "value") (wrap newValue)).2 in
        (true, h',
         notify (mkEvent OpSet [] (VObj w)
                   (Some (ordinary_get h' w (KStr "value"))) oldValue))
      else (false, h, [])
  | _ => (false, h, [])
  end.

(** Deleting property [k] of a value.  The outer proxy has no
    [deleteProperty] trap, so the deletion falls through to the wrapper. *)
Fixpoint delete_val (h : heap) (v : val) (k : key)
  : bool * heap * list ChangeEvent :=
  match v with
  | VObj l =>
      let '(result, h') := ordinary_delete h l k in (result, h', [])
  | VProxy t p =>
      let oldValue := get_val h t k in
      let '(result, h', inner) := delete_val h t k in
      (result, h',
       inner ++
       (if result
        then notify (mkEvent OpDelete (p ++ [k]) t None oldValue)
        else []))
  | VHandle w =>
      let '(result, h') := ordinary_delete h w k in (result, h', [])
  | _ => (false, h, [])
  end.

(** [ref(value, callback)]: builds the wrapper [{ value: ... }] and
    returns the outer proxy over it. *)
Definition ref (h : heap) (value : val) : val * heap :=
  let '(w, h') := alloc h (literal [(KStr "value", wrap value)]) in
  (VHandle w, h').

End Ref.

(** The wrapper that [ref] builds stays assignable: it is extensible and its
    [value] property, when present, is writable. *)
Definition wrapper_ok (h : heap) (w : loc) : Prop :=
  ∃ o, h !! w = Some o ∧ extensible o = true ∧
       ∀ p, props o !! KStr "value" = Some p → writable p = true.

(** How many layers of a value call the callback when a write, or a
    deletion, through it succeeds. *)
Fixpoint set_emitters (v : val) (k : key) : nat :=
  match v with
  | VProxy t _ => S (set_emitters t k)
  | VHandle _ => if decide (k = KStr "value") then 1 else 0
  | _ => 0
  end.

Fixpoint delete_emitters (v : val) : nat :=
  match v with
  | VProxy t _ => S (delete_emitters t)
  | _ => 0
  end.

(** [const r = ref({a: {b: 1}}, callback); r.value.a.b = 2], on any heap:
    the location of the inner object, and what the write returns. *)
Definition nested_write (h : heap) : loc * (bool * heap * list ChangeEvent) :=
  let '(lb, h1) := alloc h (literal [(KStr "b", VNum 1)]) in
  let '(la, h2) := alloc h1 (literal [(KStr "a", VObj lb)]) in
  let '(r, h3) := ref h2 (VObj la) in
  let a := get_val h3 (get_val h3 r "value") "a" in
  (lb, set_val true h3 a "b" (VNum 2)).

(** ** [reactive] *)

(** How a call of a subscriber ends. *)
Inductive outcome := Returns | Throws.

#[global] Instance outcome_eq_dec : EqDecision outcome.
Proof. solve_decision. Defined.

(** The promise of a [history()] call: pending until its timer is due, then
    fulfilled (with the array [_values] itself, see [resolved]). *)
Inductive promise :=
  | Pending (due : N)
  | Fulfilled (at_ : N).

Section Reactive.

Variable T : Type.

(** A subscriber is a function of the new value.  Its body does not touch
    the container; what matters of it here is whether the call returns or
    throws.  [sub_id] tells the functions apart in a trace. *)
Record subscriber := Subscriber {
  sub_id : nat;
  sub_run : T → outcome
}.

(** The fields of the class [Reactive]. *)
Record Reactive := mkReactive {
  _value : T;
  _values : list T;
  subscribers : list subscriber
}.

(** What a method of the container does, in program order. *)
Inductive effect :=
  | Store (v : T)
  | Call (id : nat) (arg : T)
  | Push (v : T).

(** [reactive(value)]: [_values = []], [subscribers = []]. *)
Definition reactive (value : T) : Reactive := mkReactive value [] [].

(** [get value()] *)
Definition get_value (r : Reactive) : T := _value r.

(** [this.subscribers.forEach((sub) => sub(newValue))]: the calls made and
    how the loop ends.  A subscriber that throws ends the loop. *)
Fixpoint forEach (subs : list subscriber) (newValue : T)
  : list effect * outcome :=
  match subs with
  | [] => ([], Returns)
  | sub :: rest =>
      match sub_run sub newValue with
      | Returns =>
          let '(calls, o) := forEach rest newValue in
          (Call (sub_id sub) newValue :: calls, o)
      | Throws => ([Call (sub_id sub) newValue], Throws)
      end
  end.

(** [set value(newValue)]: the container after the call, the effects in
    order and how the call ends. *)
Definition set_value (r : Reactive) (newValue : T)
  : Reactive * list effect * outcome :=
  let r1 := mkReactive newValue (_values r) (subscribers r) in
  match forEach (subscribers r1) newValue with
  | (calls, Returns) =>
      (mkReactive (_value r1) (_values r1 ++ [_value r1]) (subscribers r1),
       Store newValue :: calls ++ [Push (_value r1)], Returns)
  | (calls, Throws) => (r1, Store newValue :: calls, Throws)
  end.

(** [this.subscribers.push(subscriber)] *)
Definition push_subscriber (r : Reactive) (s : subscriber) : Reactive :=
  mkReactive (_value r) (_values r) (subscribers r ++ [s]).

(** [subscribe(...subscribers)] *)
Definition subscribe (r : Reactive) (subs : list subscriber)
  : Reactive * list effect :=
  (fold_left push_subscriber subs r, []).

(** The container in time: a clock in milliseconds and the promises that
    the calls of [history()] have made, by index. *)
Record World := mkWorld {
  cell : Reactive;
  now : N;
  promises : list promise
}.

(** Modelled from the spec: [delay], imported from "./delay", is not among
    the sources.  The spec describes it as a timer-based deferred
    resolution with a fixed, non-zero minimum wait: the promise that
    [delay(ms)] makes at time [t] is pending until the clock reaches
    [t + ms]. *)
Definition delay (ms : N) (t : N) : promise := Pending (t + ms).

(** [history()]: [await delay(1000)] suspends the call; the index of the
    promise is returned to the caller at once. *)
Definition history (w : World) : nat * World :=
  (length (promises w),
   mkWorld (cell w) (now w) (promises w ++ [delay 1000 (now w)])).

(** A timer that is due fires. *)
Definition fire (t : N) (p : promise) : promise :=
  match p with
  | Pending due => if (due <=? t)%N then Fulfilled due else Pending due
  | Fulfilled a => Fulfilled a
  end.

(** [dt] milliseconds pass with the event loop idle. *)
Definition advance (dt : N) (w : World) : World :=
  mkWorld (cell w) (now w + dt) (map (fire (now w + dt)) (promises w)).

(** [return this._values]: a fulfilled promise holds the array of the
    container, not a copy, so what it shows is the log of the world it is
    read in. *)
Definition resolved (w : World) (p : nat) : option (list T) :=
  match promises w !! p with
  | Some (Fulfilled _) => Some (_values (cell w))
  | _ => None
  end.

(** What a client does with a container.  A write that throws is caught
    by the client, which carries on. *)
Inductive op :=
  | SetValue (v : T)
  | Subscribe (subs : list subscriber)
  | History
  | Advance (dt : N).

Definition step (w : World) (o : op) : World :=
  match o with
  | SetValue v => mkWorld (set_value (cell w) v).1.1 (now w) (promises w)
  | Subscribe subs =>
      mkWorld (subscribe (cell w) subs).1 (now w) (promises w)
  | History => (history w).2
  | Advance dt => advance dt w
  end.

Definition run (ops : list op) (w : World) : World := fold_left step ops w.

Definition init (value : T) : World := mkWorld (reactive value) 0 [].

(** Whether [sub(v)] returns. *)
Definition returns_on (v : T) (s : subscriber) : bool :=
  match sub_run s v with Returns => true | Throws => false end.

(** The values of the writes of a run that ran to their end (no subscriber
    threw), in order. *)
Fixpoint logged (ops : list op) (w : World) : list T :=
  match ops with
  | [] => []
  | o :: rest =>
      match o with
      | SetValue v =>
          if forallb (returns_on v) (subscribers (cell w)) then [v] else []
      | _ => []
      end ++ logged rest (step w o)
  end.

(** Every value a run writes, in order. *)
Definition writes (ops : list op) : list T :=
  flat_map (λ o, match o with SetValue v => [v] | _ => [] end) ops.

(** The time a run takes. *)
Definition elapsed (ops : list op) : N :=
  fold_right (λ o t, match o with Advance dt => dt + t | _ => t end)%N
    0%N ops.

(** A run none of whose subscribers ever throws. *)
Definition polite (ops : list op) : Prop :=
  Forall (λ o, match o with
               | Subscribe subs =>
                   Forall (λ s, ∀ v, sub_run s v = Returns) subs
               | _ => True
               end) ops.

(** The state of a promise whose timer is due at [due], at time [t]. *)
Definition settled (due : N) (t : N) : promise :=
  if (due <=? t)%N then Fulfilled due else Pending due.

(** The call [s(v)] in a trace. *)
Definition call_of (v : T) (s : subscriber) : effect := Call (sub_id s) v.

End Reactive.

Arguments Subscriber {T}.
Arguments sub_id {T}.
Arguments sub_run {T}.
Arguments mkReactive {T}.
Arguments _value {T}.
Arguments _values {T}.
Arguments subscribers {T}.
Arguments Store {T}.
Arguments Call {T}.
Arguments Push {T}.
Arguments reactive {T}.
Arguments forEach {T}.
Arguments set_value {T}.
Arguments push_subscriber {T}.
Arguments subscribe {T}.
Arguments mkWorld {T}.
Arguments cell {T}.
Arguments now {T}.
Arguments promises {T}.
Arguments history {T}.
Arguments advance {T}.
Arguments resolved {T}.
Arguments SetValue {T}.
Arguments Subscribe {T}.
Arguments History {T}.
Arguments Advance {T}.
Arguments step {T}.
Arguments run {T}.
Arguments init {T}.
Arguments returns_on {T}.
Arguments logged {T}.
Arguments writes {T}.
Arguments elapsed {T}.
Arguments polite {T}.
Arguments call_of {T}.

(** Two subscribers over numbers: one that throws, one that returns. *)
Definition thrower : subscriber Z := Subscriber 1 (λ _, Throws).
Definition quiet (n : nat) : subscriber Z := Subscriber n (λ _, Returns).

(** ** Reading along a path *)

(** [v.k1.k2...kn]: the reads of a chain of property accesses. *)
Definition get_path (h : heap) (v : val) (ks : list key) : val :=
  fold_left (get_val h) ks v.

(** ** Runs of a container *)

(** The functions a run registers, in order. *)
Definition subscribed {T : Type} (ops : list (op T)) : list (subscriber T) :=
  flat_map (λ o, match o with Subscribe subs => subs | _ => [] end) ops.

(** How many times a run of effects calls the function [id]. *)
Definition calls_to {T : Type} (id : nat) (tr : list (effect T)) : nat :=
  length (List.filter
            (λ e, match e with Call i _ => Nat.eqb i id | _ => false end) tr).

(** ** The price state and the polling loop of the server *)

(** A JavaScript number, as far as [!==] tells numbers apart: [NaN], or a
    value of a type [F] with decidable equality (the other numbers, [+0]
    and [-0] taken as one). *)
Inductive number (F : Type) :=
  | NaN
  | Num (x : F).

Arguments NaN {F}.
Arguments Num {F}.

(** What [fetchPrice] resolves with. *)
Record priceData (F : Type) := PriceData {
  symbol : string;
  price : number F;
  time : string
}.

Arguments PriceData {F}.
Arguments symbol {F}.
Arguments price {F}.
Arguments time {F}.

(** [{ type: 'btc_price', data: priceData }] *)
Record message (F : Type) := Message {
  msg_type : string;
  data : priceData F
}.

Arguments Message {F}.
Arguments msg_type {F}.
Arguments data {F}.

(** What the server does that can be seen from outside, in program order:
    [client.send(JSON.stringify(message))] and the lines it logs. *)
Inductive output (F : Type) :=
  | Send (client : nat) (m : message F)
  | LogConnected (n : nat)
  | LogDisconnected
  | LogUpdated (d : priceData F)
  | LogNotUpdated
  | LogError.

Arguments Send {F}.
Arguments LogConnected {F}.
Arguments LogDisconnected {F}.
Arguments LogUpdated {F}.
Arguments LogNotUpdated {F}.
Arguments LogError {F}.

(** What happens to the server: a client connects, a client's socket
    closes, or a tick of the interval ends, with what [fetchPrice] gave
    ([None] when it threw) and which sockets are [OPEN] at that time.
    Sockets are told apart by a number. *)
Inductive input (F : Type) :=
  | Connection (ws : nat)
  | Disconnect (ws : nat)
  | Poll (fetched : option (priceData F)) (is_open : nat → bool).

Arguments Connection {F}.
Arguments Disconnect {F}.
Arguments Poll {F}.

(** The two variables of the server: [clients] and [lastPrice]. *)
Record Server (F : Type) := mkServer {
  clients : list nat;
  lastPrice : option (number F)
}.

Arguments mkServer {F}.
Arguments clients {F}.
Arguments lastPrice {F}.

Section Price.

Context {F : Type} `{EqDecision F}.

(** [a !== b] on numbers. *)
Definition strict_ne (a b : number F) : bool :=
  match a, b with
  | Num x, Num y => bool_decide (x ≠ y)
  | _, _ => true
  end.

(** [isUpdated(newPrice)]: [newPrice !== lastPrice], [lastPrice] being
    [null] at first. *)
Definition isUpdated (last : option (number F)) (newPrice : number F)
  : bool :=
  match last with
  | None => true
  | Some p => strict_ne newPrice p
  end.

(** [updateLastPrice(newPrice)] *)
Definition updateLastPrice (last : option (number F)) (newPrice : number F)
  : option (number F) := Some newPrice.

(** [wss.on('connection', ...)]: [clients.push(ws)]. *)
Definition on_connection (ws : nat) (s : Server F)
  : Server F * list (output F) :=
  let clients' := clients s ++ [ws] in
  (mkServer clients' (lastPrice s), [LogConnected (length clients')]).

(** [ws.on('close', ...)]: [clients.filter(client => client !== ws)]. *)
Definition on_close (ws : nat) (s : Server F)
  : Server F * list (output F) :=
  (mkServer (List.filter (λ client, negb (Nat.eqb client ws)) (clients s))
            (lastPrice s),
   [LogDisconnected]).

(** The body of the [setInterval] callback, from the point where
    [await fetchPrice()] ends. *)
Definition on_interval (fetched : option (priceData F))
    (is_open : nat → bool) (s : Server F) : Server F * list (output F) :=
  match fetched with
  | Some d =>
      if isUpdated (lastPrice s) (price d) then
        (mkServer (clients s) (updateLastPrice (lastPrice s) (price d)),
         map (λ client, Send client (Message "btc_price" d))
             (List.filter is_open (clients s))
         ++ [LogUpdated d])
      else (s, [LogNotUpdated])
  | None => (s, [LogError])
  end.

Definition serve (s : Server F) (i : input F) : Server F * list (output F) :=
  match i with
  | Connection ws => on_connection ws s
  | Disconnect ws => on_close ws s
  | Poll fetched is_open => on_interval fetched is_open s
  end.

(** The server over a sequence of inputs: its state at the end and all
    that it put out. *)
Fixpoint serve_all (s : Server F) (inputs : list (input F))
  : Server F * list (output F) :=
  match inputs with
  | [] => (s, [])
  | i :: rest =>
      let '(s1, out1) := serve s i in
      let '(s2, out2) := serve_all s1 rest in
      (s2, out1 ++ out2)
  end.

(** The prices of the updates a run of outputs announces. *)
Definition updates (out : list (output F)) : list (number F) :=
  flat_map (λ o, match o with LogUpdated d => [price d] | _ => [] end) out.

(** The messages a run of outputs sends to [ws]. *)
Definition sent_to (ws : nat) (out : list (output F)) : list (message F) :=
  flat_map (λ o, match o with
                 | Send client m => if Nat.eqb client ws then [m] else []
                 | _ => []
                 end) out.

(** Every two neighbours of a list are related. *)
Fixpoint chain {A : Type} (R : A → A → Prop) (l : list A) : Prop :=
  match l with
  | a :: (b :: _) as rest => R a b ∧ chain R rest
  | _ => True
  end.

End Price.

(** * Facts about [ref] *)

(** ** The heap *)

Lemma alloc_spec (h : heap) (o : obj) :
  h !! (alloc h o).1 = None ∧ (alloc h o).2 = <[(alloc h o).1 := o]> h.
Proof.
  split; [|done]. apply not_elem_of_dom. apply is_fresh.
Qed.

Lemma ordinary_get_insert_eq (h : heap) l o k :
  ordinary_get (<[l := o]> h) l k =
  match props o !! k with Some p => pvalue p | None => VUndef end.
Proof. unfold ordinary_get. by rewrite lookup_insert_eq. Qed.

Lemma ordinary_get_insert_ne (h : heap) l l' o k :
  l ≠ l' → ordinary_get (<[l := o]> h) l' k = ordinary_get h l' k.
Proof. intros. unfold ordinary_get. by rewrite lookup_insert_ne. Qed.

Lemma literal_single (k k' : key) (v : val) :
  props (literal [(k, v)]) !! k' =
  if decide (k = k') then Some (Prop_ v true true) else None.
Proof.
  unfold literal; cbn. case_decide; subst.
  - by rewrite lookup_insert_eq.
  - by rewrite lookup_insert_ne.
Qed.

Ltac heap_simpl :=
  repeat first
    [ rewrite ordinary_get_insert_eq
    | rewrite ordinary_get_insert_ne by done
    | rewrite literal_single
    | rewrite lookup_insert_eq
    | rewrite lookup_insert_ne by done
    | rewrite decide_True by done
    | rewrite decide_False by done
    | progress cbn [get_val set_val delete_val isObject pvalue writable
                    configurable extensible props wrap notify app fst snd] ].

(** C1: for a Ref over [{a: {b: 1}}] with a callback, the nested write
    [ref.value.a.b = 2] succeeds and calls the callback exactly once, with
    the event [{operation: set, path: [a, b], newValue: 2, oldValue: 1}]
    whose target is the inner object; the path starts at the root of the
    Ref.  The inner object then holds [b = 2]. *)
Theorem nested_write_event (h : heap) :
  ∃ lb h',
    nested_write h =
      (lb, (true, h',
            [mkEvent OpSet [KStr "a"; KStr "b"] (VObj lb)
                     (Some (VNum 2)) (VNum 1)]))
    ∧ ordinary_get h' lb "b" = VNum 2.
Proof.
  unfold nested_write, ref.
  destruct (alloc h _) as [lb h1] eqn:E1.
  destruct (alloc h1 _) as [la h2] eqn:E2.
  destruct (alloc h2 _) as [w h3] eqn:E3.
  pose proof (alloc_spec h (literal [(KStr "b", VNum 1)])) as [F1 G1].
  pose proof (alloc_spec h1 (literal [(KStr "a", VObj lb)])) as [F2 G2].
  pose proof (alloc_spec h2 (literal [(KStr "value", wrap (VObj la))])) as [F3 G3].
  rewrite E1 in F1, G1. rewrite E2 in F2, G2. rewrite E3 in F3, G3.
  simpl in *. subst h1 h2 h3.
  assert (la ≠ lb) by (intros ->; by rewrite lookup_insert_eq in F2).
  assert (w ≠ la) by (intros ->; by rewrite lookup_insert_eq in F3).
  assert (w ≠ lb).
  { intros ->. rewrite lookup_insert_ne in F3 by done.
    by rewrite lookup_insert_eq in F3. }
  eexists lb, _. split.
  - heap_simpl. unfold ordinary_set. heap_simpl. reflexivity.
  - heap_simpl. done.
Qed.

Lemma ordinary_set_rejected h l k x :
  (ordinary_set h l k x).1 = false → (ordinary_set h l k x).2 = h.
Proof.
  unfold ordinary_set. destruct (h !! l) as [o|]; [|done].
  destruct (props o !! k) as [p|].
  - by destruct (writable p).
  - by destruct (extensible o).
Qed.

Lemma ordinary_delete_rejected h l k :
  (ordinary_delete h l k).1 = false → (ordinary_delete h l k).2 = h.
Proof.
  unfold ordinary_delete. destruct (h !! l) as [o|]; [|done].
  destruct (props o !! k) as [p|]; [|done].
  by destruct (configurable p).
Qed.

Lemma ordinary_delete_absent h l o k :
  h !! l = Some o → props o !! k = None → ordinary_delete h l k = (true, h).
Proof. intros Hl Hk. unfold ordinary_delete. by rewrite Hl, Hk. Qed.

Lemma set_val_events cb h v k x :
  length (set_val cb h v k x).2 =
    (if (set_val cb h v k x).1.1 && cb then set_emitters v k else 0)%nat
  ∧ ((set_val cb h v k x).1.1 = false → (set_val cb h v k x).1.2 = h).
Proof.
  induction v as [| | | | |l|t IH p|w]; cbn [set_val set_emitters]; try done.
  - destruct (ordinary_set h l k x) as [r h'] eqn:E; cbn.
    split; [by destruct r, cb|]. intros ->.
    by rewrite <- (ordinary_set_rejected h l k x), E by (by rewrite E).
  - destruct (set_val cb h t k x) as [[r h'] evs]; cbn in *.
    destruct IH as [IH1 IH2]. split; [|done].
    rewrite length_app, IH1. unfold notify.
    destruct r, cb; cbn; lia.
  - case_decide; cbn; [|done]. split; [|done].
    unfold notify. by destruct cb.
Qed.

Lemma delete_val_events cb h v k :
  length (delete_val cb h v k).2 =
    (if (delete_val cb h v k).1.1 && cb then delete_emitters v else 0)%nat
  ∧ ((delete_val cb h v k).1.1 = false → (delete_val cb h v k).1.2 = h).
Proof.
  induction v as [| | | | |l|t IH p|w]; cbn [delete_val delete_emitters];
    try done.
  - destruct (ordinary_delete h l k) as [r h'] eqn:E; cbn.
    split; [by destruct r, cb|]. intros ->.
    by rewrite <- (ordinary_delete_rejected h l k), E by (by rewrite E).
  - destruct (delete_val cb h t k) as [[r h'] evs]; cbn in *.
    destruct IH as [IH1 IH2]. split; [|done].
    rewrite length_app, IH1. unfold notify.
    destruct r, cb; cbn; lia.
  - destruct (ordinary_delete h w k) as [r h'] eqn:E; cbn.
    split; [by destruct r, cb|]. intros ->.
    by rewrite <- (ordinary_delete_rejected h w k), E by (by rewrite E).
Qed.




Lemma ref_wrapper_ok (h : heap) (value : val) :
  ∃ w, (ref h value).1 = VHandle w ∧ wrapper_ok (ref h value).2 w
       ∧ h !! w = None
       ∧ get_val (ref h value).2 (VHandle w) "value" = wrap value.
Proof.
  unfold ref. destruct (alloc h _) as [w h'] eqn:E.
  pose proof (alloc_spec h (literal [(KStr "value", wrap value)])) as [F G].
  rewrite E in F, G; cbn in F, G. subst h'.
  exists w. repeat split; [|done|].
  - eexists. split; [apply lookup_insert_eq|]. split; [done|].
    intros p. rewrite literal_single, decide_True by done. by intros [= <-].
  - cbn. by heap_simpl.
Qed.

Lemma ordinary_set_wrapper_ok h l k x w :
  wrapper_ok h w → wrapper_ok (ordinary_set h l k x).2 w.
Proof.
  intros (o & Hw & He & Hv). unfold ordinary_set.
  destruct (h !! l) as [o'|] eqn:El; [|by exists o].
  destruct (decide (l = w)) as [->|Hne].
  - assert (o' = o) as -> by congruence.
    destruct (props o !! k) as [q|] eqn:Ek.
    + destruct (writable q) eqn:Hq; [|by exists o].
      eexists. split; [apply lookup_insert_eq|]. split; [done|].
      intros p; cbn. destruct (decide (k = KStr "value")) as [->|].
      * rewrite lookup_insert_eq. by intros [= <-].
      * rewrite lookup_insert_ne by done. apply Hv.
    + rewrite He. eexists. split; [apply lookup_insert_eq|]. split; [done|].
      intros p; cbn. destruct (decide (k = KStr "value")) as [->|].
      * rewrite lookup_insert_eq. by intros [= <-].
      * rewrite lookup_insert_ne by done. apply Hv.
  - exists o. split; [|done].
    destruct (props o' !! k) as [q|].
    + destruct (writable q); cbn; [by rewrite lookup_insert_ne|done].
    + destruct (extensible o'); cbn; [by rewrite lookup_insert_ne|done].
Qed.

Lemma ordinary_delete_wrapper_ok h l k w :
  wrapper_ok h w → wrapper_ok (ordinary_delete h l k).2 w.
Proof.
  intros (o & Hw & He & Hv). unfold ordinary_delete.
  destruct (h !! l) as [o'|] eqn:El; [|by exists o].
  destruct (props o' !! k) as [q|] eqn:Ek; [|by exists o].
  destruct (configurable q); [|by exists o]. cbn.
  destruct (decide (l = w)) as [->|Hne].
  - assert (o' = o) as -> by congruence.
    eexists. split; [apply lookup_insert_eq|]. split; [done|].
    intros p; cbn. destruct (decide (k = KStr "value")) as [->|].
    + by rewrite lookup_delete_eq.
    + rewrite lookup_delete_ne by done. apply Hv.
  - exists o. by rewrite lookup_insert_ne.
Qed.

Lemma set_val_wrapper_ok cb h v k x w :
  wrapper_ok h w → wrapper_ok (set_val cb h v k x).1.2 w.
Proof.
  intros Hw. induction v as [| | | | |l|t IH p|w']; cbn [set_val]; try done.
  - pose proof (ordinary_set_wrapper_ok h l k x w Hw).
    by destruct (ordinary_set h l k x).
  - by destruct (set_val cb h t k x) as [[r h'] evs].
  - case_decide; [|done]. cbn. by apply ordinary_set_wrapper_ok.
Qed.

Lemma delete_val_wrapper_ok cb h v k w :
  wrapper_ok h w → wrapper_ok (delete_val cb h v k).1.2 w.
Proof.
  intros Hw. induction v as [| | | | |l|t IH p|w']; cbn [delete_val]; try done.
  - pose proof (ordinary_delete_wrapper_ok h l k w Hw).
    by destruct (ordinary_delete h l k).
  - by destruct (delete_val cb h t k) as [[r h'] evs].
  - pose proof (ordinary_delete_wrapper_ok h w' k w Hw).
    by destruct (ordinary_delete h w' k).
Qed.

Lemma ordinary_set_get h l k x o :
  h !! l = Some o → extensible o = true →
  (∀ p, props o !! k = Some p → writable p = true) →
  (ordinary_set h l k x).1 = true
  ∧ ordinary_get (ordinary_set h l k x).2 l k = x.
Proof.
  intros Hl He Hv. unfold ordinary_set. rewrite Hl.
  destruct (props o !! k) as [q|] eqn:Ek.
  - rewrite (Hv q) by done. cbn. split; [done|].
    rewrite ordinary_get_insert_eq. cbn. by rewrite lookup_insert_eq.
  - rewrite He. cbn. split; [done|].
    rewrite ordinary_get_insert_eq. cbn. by rewrite lookup_insert_eq.
Qed.

(** C5 (amended): with a callback, the write [handle.value = x] returns
    [true] and calls the callback exactly once, with the event
    [{operation: set, path: [], target, newValue, oldValue}] where
    [oldValue] is the value stored before, [newValue] the value stored after
    ([x], behind a proxy when it is an object) and [target] is the wrapper
    object behind the handle, not the handle. *)
Theorem root_write_event (h : heap) (w : loc) (x : val) :
  wrapper_ok h w →
  ∃ h',
    set_val true h (VHandle w) "value" x =
      (true, h',
       [mkEvent OpSet [] (VObj w) (Some (wrap x))
                (get_val h (VHandle w) "value")])
    ∧ get_val h' (VHandle w) "value" = wrap x
    ∧ wrapper_ok h' w.
Proof.
  intros Hok. pose proof Hok as (o & Hw & He & Hv).
  destruct (ordinary_set_get h w (KStr "value") (wrap x) o Hw He Hv)
    as [_ Hget].
  eexists. cbn [set_val get_val]. rewrite !decide_True by done.
  rewrite Hget. cbn [notify]. repeat split; [done|].
  by apply ordinary_set_wrapper_ok.
Qed.

(** C5, witness: [ref(0, callback)] and the write [value = 5]. *)
Lemma root_write_event_witness :
  wrapper_ok (ref ∅ (VNum 0)).2 1%positive ∧
  ∃ h',
    set_val true (ref ∅ (VNum 0)).2 (VHandle 1) "value" (VNum 5) =
      (true, h',
       [mkEvent OpSet [] (VObj 1) (Some (VNum 5)) (VNum 0)])
    ∧ get_val h' (VHandle 1) "value" = VNum 5
    ∧ wrapper_ok h' 1%positive.
Proof.
  assert (wrapper_ok (ref ∅ (VNum 0)).2 1%positive) as Hok.
  { destruct (ref_wrapper_ok ∅ (VNum 0)) as (w & E & Hok & _).
    vm_compute in E. by injection E as <-. }
  split; [exact Hok|].
  exact (root_write_event (ref ∅ (VNum 0)).2 1%positive (VNum 5) Hok).
Defined.

(** C5, counterexample: the target of the event of [ref(0).value = 5] is
    the plain wrapper object, which is not the handle. *)
Lemma root_event_target_is_wrapper :
  let '(r, h) := ref ∅ (VNum 0) in
  ∃ w h' e,
    r = VHandle w
    ∧ set_val true h r "value" (VNum 5) = (true, h', [e])
    ∧ target e = VObj w
    ∧ target e ≠ r.
Proof.
  vm_compute. eexists _, _, _. repeat split. done.
Qed.





(** * Facts about [reactive] *)

Section ReactiveFacts.

Context {T : Type}.
Implicit Types (r : Reactive T) (s : subscriber T) (subs : list (subscriber T))
  (v : T) (w : World T) (ops : list (op T)).

Lemma forEach_all_return subs v :
  Forall (λ s, sub_run s v = Returns) subs →
  forEach subs v = (map (call_of v) subs, Returns).
Proof.
  induction 1 as [|s subs Hs _ IH]; [done|].
  cbn. by rewrite Hs, IH.
Qed.

Lemma forEach_first_throw pre s post v :
  Forall (λ s, sub_run s v = Returns) pre →
  sub_run s v = Throws →
  forEach (pre ++ s :: post) v = (map (call_of v) (pre ++ [s]), Throws).
Proof.
  intros Hpre Hs. induction Hpre as [|s' pre Hs' _ IH]; cbn.
  - by rewrite Hs.
  - by rewrite Hs', IH.
Qed.

Lemma forEach_prefix subs v :
  ∃ called,
    called `prefix_of` subs
    ∧ (forEach subs v).1 = map (call_of v) called
    ∧ ((forEach subs v).2 = Returns → called = subs)
    ∧ ((forEach subs v).2 = Returns ↔ forallb (returns_on v) subs = true).
Proof.
  induction subs as [|s subs (called & Hp & Hc & Hr & Hb)]; cbn.
  - by exists [].
  - unfold returns_on at 1. destruct (sub_run s v) eqn:Hs.
    + destruct (forEach subs v) as [calls o]; cbn in *.
      exists (s :: called). repeat split; try done.
      * by apply prefix_cons.
      * by rewrite Hc.
      * intros Ho. by rewrite Hr.
      * apply Hb. * apply Hb.
    + exists [s]. repeat split; try done.
      by apply prefix_cons, prefix_nil.
Qed.

Lemma subscribe_app r subs :
  fold_left push_subscriber subs r =
  mkReactive (_value r) (_values r) (subscribers r ++ subs).
Proof.
  revert r. induction subs as [|s subs IH]; intros r; cbn.
  - rewrite app_nil_r. by destruct r.
  - rewrite IH. cbn. by rewrite <- app_assoc.
Qed.

Lemma registered_subscribers (regs : list (list (subscriber T))) r :
  fold_left (λ r subs, (subscribe r subs).1) regs r =
  mkReactive (_value r) (_values r) (subscribers r ++ concat regs).
Proof.
  revert r. induction regs as [|subs regs IH]; intros r; cbn.
  - rewrite app_nil_r. by destruct r.
  - rewrite IH, subscribe_app. cbn. by rewrite <- app_assoc.
Qed.

(** C10: [subscribe(f1, ..., fn)] appends the functions to the end of the
    subscriber list in argument order; it calls no subscriber and leaves
    the current value and the history log as they are. *)
Theorem subscribe_appends r subs :
  subscribe r subs =
    (mkReactive (_value r) (_values r) (subscribers r ++ subs), []).
Proof. unfold subscribe. by rewrite subscribe_app. Qed.



End ReactiveFacts.

Section HistoryFacts.

Context {T : Type}.
Implicit Types (r : Reactive T) (s : subscriber T)
  (subs : list (subscriber T)) (v : T) (w : World T) (ops : list (op T)).

Lemma run_app ops1 ops2 w : run (ops1 ++ ops2) w = run ops2 (run ops1 w).
Proof. apply fold_left_app. Qed.

Lemma logged_app ops1 ops2 w :
  logged (ops1 ++ ops2) w = logged ops1 w ++ logged ops2 (run ops1 w).
Proof.
  revert w. induction ops1 as [|o ops1 IH]; intros w; cbn; [done|].
  by rewrite IH, app_assoc.
Qed.

Lemma set_value_log r v :
  _values (set_value r v).1.1 =
  _values r ++ (if forallb (returns_on v) (subscribers r) then [v] else []).
Proof.
  unfold set_value. cbn.
  destruct (forEach_prefix (subscribers r) v) as (called & _ & _ & _ & Hb).
  destruct (forEach (subscribers r) v) as [calls []]; cbn in *.
  - by rewrite (proj1 Hb eq_refl).
  - destruct (forallb _ _); [|by rewrite app_nil_r].
    by specialize (proj2 Hb eq_refl).
Qed.

Lemma step_log w o :
  _values (cell (step w o)) = _values (cell w) ++ logged [o] w.
Proof.
  destruct o as [v|subs| |dt]; cbn; rewrite ?app_nil_r; try done.
  - apply set_value_log.
  - by rewrite subscribe_app.
Qed.

Lemma run_log ops w :
  _values (cell (run ops w)) = _values (cell w) ++ logged ops w.
Proof.
  revert w. induction ops as [|o ops IH]; intros w.
  - cbn. by rewrite app_nil_r.
  - change (run (o :: ops) w) with (run ops (step w o)).
    rewrite IH, step_log. cbn [logged]. by rewrite !app_nil_r, app_assoc.
Qed.

Lemma step_cell w w' o : cell w = cell w' → cell (step w o) = cell (step w' o).
Proof. intros E. destruct o; cbn; by rewrite ?E. Qed.

Lemma logged_cell ops w w' : cell w = cell w' → logged ops w = logged ops w'.
Proof.
  revert w w'. induction ops as [|o ops IH]; intros w w' E; [done|].
  cbn [logged]. rewrite E. f_equal. by apply IH, step_cell.
Qed.

Lemma run_now ops w : now (run ops w) = (now w + elapsed ops)%N.
Proof.
  revert w. induction ops as [|o ops IH]; intros w.
  - cbn. lia.
  - change (run (o :: ops) w) with (run ops (step w o)).
    rewrite IH. unfold elapsed. cbn [fold_right]. fold (elapsed ops).
    destruct o; cbn [step history advance now snd]; lia.
Qed.

Lemma step_promise w o p due :
  promises w !! p = Some (settled due (now w)) →
  promises (step w o) !! p = Some (settled due (now (step w o))).
Proof.
  intros Hp. destruct o as [v|subs| |dt]; cbn; try done.
  - by apply lookup_app_l_Some.
  - rewrite list_lookup_fmap, Hp. cbn. f_equal.
    unfold settled, fire.
    destruct (N.leb_spec due (now w)), (N.leb_spec due (now w + dt)%N);
      try done; lia.
Qed.

Lemma run_promise ops w p due :
  promises w !! p = Some (settled due (now w)) →
  promises (run ops w) !! p = Some (settled due (now (run ops w))).
Proof.
  revert w. induction ops as [|o ops IH]; intros w Hp; [done|].
  change (run (o :: ops) w) with (run ops (step w o)).
  by apply IH, step_promise.
Qed.

Lemma history_promise w :
  promises (history w).2 !! (history w).1
    = Some (settled (now w + 1000) (now (history w).2))
  ∧ promises (history w).2 !! (history w).1 = Some (Pending (now w + 1000))
  ∧ resolved (history w).2 (history w).1 = None.
Proof.
  assert (promises (history w).2 !! (history w).1
          = Some (Pending (now w + 1000))) as E.
  { cbn. rewrite lookup_app_r by done. by rewrite Nat.sub_diag. }
  repeat split; [|done|by unfold resolved; rewrite E].
  rewrite E. unfold settled. cbn.
  destruct (N.leb_spec (now w + 1000) (now w)); [lia|done].
Qed.

Lemma polite_logged ops w :
  Forall (λ s, ∀ v, sub_run s v = Returns) (subscribers (cell w)) →
  polite ops → logged ops w = writes ops.
Proof.
  revert w. induction ops as [|o ops IH]; intros w Hw Hops; [done|].
  inversion Hops as [|? ? Ho Hrest]; subst. cbn [logged writes flat_map].
  f_equal.
  - destruct o as [v| | |]; try done.
    replace (forallb _ _) with true; [done|].
    symmetry. apply forallb_forall. intros s Hs.
    unfold returns_on. rewrite Forall_forall in Hw.
    by rewrite Hw by (by apply list_elem_of_In).
  - apply IH; [|done].
    destruct o as [v|subs| |dt]; cbn; try done.
    + unfold set_value; cbn.
      by destruct (forEach (subscribers (cell w)) v) as [calls []].
    + rewrite subscribe_app. cbn. by apply Forall_app.
Qed.


(** C9 (amended): a call of [history()] is resolved once 1000 ms have
    passed, not before, and what it resolves with is the log as it stands
    when it is resolved: the log at the call followed by the writes
    completed between the call and the resolution.  The result is the
    container's own array, so later writes show in it too. *)
Theorem history_reads_log_at_resolution w ops (dt : N) :
  (elapsed ops < 1000)%N →
  (1000 ≤ elapsed ops + dt)%N →
  let p := (history w).1 in
  let w' := run ops (history w).2 in
  resolved w' p = None
  ∧ resolved (advance dt w') p
    = Some (_values (cell w) ++ logged ops (history w).2)
  ∧ ∀ later,
      resolved (run later (advance dt w')) p
      = Some (_values (cell w)
              ++ logged (ops ++ Advance dt :: later) (history w).2).
Proof.
  intros Hlt Hge p w'.
  destruct (history_promise w) as (Hs & _ & _).
  pose proof (run_promise ops _ _ _ Hs) as H1. fold p w' in H1.
  assert (now w' = now w + elapsed ops)%N as En.
  { unfold w'. by rewrite run_now. }
  assert (∀ later,
    promises (run later (advance dt w')) !! p
    = Some (Fulfilled (now w + 1000))) as Hful.
  { intros later.
    pose proof (run_promise (Advance dt :: later) _ _ _ H1) as H2.
    change (run (Advance dt :: later) w')
      with (run later (advance dt w')) in H2.
    rewrite H2. unfold settled.
    rewrite run_now. cbn [advance now].
    destruct (N.leb_spec (now w + 1000)
                (now w' + dt + elapsed later)); [done|lia]. }
  split; [|split].
  - unfold resolved. rewrite H1. unfold settled.
    destruct (N.leb_spec (now w + 1000) (now w')); [lia|done].
  - pose proof (Hful []) as H0. cbn [run fold_left] in H0.
    unfold resolved. rewrite H0. cbn [advance cell].
    unfold w'. by rewrite run_log.
  - intros later. unfold resolved. rewrite Hful.
    change (run later (advance dt w'))
      with (run (Advance dt :: later) w').
    unfold w'. rewrite <- run_app, run_log. done.
Qed.

End HistoryFacts.





(** C9, counterexample: a write made after the call of [history()] and
    before its resolution is in the result. *)
Lemma history_not_snapshot_at_call :
let w1 := run [SetValue 1] (init 0) in
let '(p, w2) := history w1 in
let w3 := run [SetValue 2; Advance 1000] w2 in
_values (cell w1) = [1]
∧ resolved w3 p = Some [1; 2]
∧ resolved w3 p ≠ Some (_values (cell w1)).
Proof. vm_compute. repeat split. discriminate. Qed.


(** C9, witness: [value = 1; history(); value = 2], then 1000 ms. *)
Lemma history_reads_log_at_resolution_witness :
(elapsed [SetValue 2] < 1000)%N
∧ (1000 ≤ elapsed [SetValue 2] + 1000)%N
∧ resolved
    (advance 1000 (run [SetValue 2] (history (run [SetValue 1] (init 0))).2))
    (history (run [SetValue 1] (init 0))).1
  = Some [1; 2].
Proof.
assert (elapsed [SetValue 2] < 1000)%N as H1 by (vm_compute; done).
assert (1000 ≤ elapsed [SetValue 2] + 1000)%N as H2 by (vm_compute; discriminate).
split; [exact H1|]. split; [exact H2|].
exact (proj1 (proj2
  (history_reads_log_at_resolution (run [SetValue 1] (init 0))
     [SetValue 2] 1000 H1 H2))).
Defined.

(** * Further facts about [ref] *)

Lemma ordinary_set_frame h l k x :
  (∀ l', l' ≠ l → (ordinary_set h l k x).2 !! l' = h !! l')
  ∧ (∀ k', k' ≠ k →
       ordinary_get (ordinary_set h l k x).2 l k' = ordinary_get h l k')
  ∧ ((ordinary_set h l k x).1 = true →
       ordinary_get (ordinary_set h l k x).2 l k = x).
Proof.
  unfold ordinary_set, ordinary_get.
  destruct (h !! l) as [o|] eqn:El; cbn; [|by rewrite El].
  destruct (props o !! k) as [q|] eqn:Ek.
  - destruct (writable q); cbn; [|by rewrite El, Ek].
    split; [by intros; rewrite lookup_insert_ne|].
    rewrite lookup_insert_eq; cbn. split.
    + intros k' Hk. by rewrite lookup_insert_ne.
    + by rewrite lookup_insert_eq.
  - destruct (extensible o); cbn; [|by rewrite El, Ek].
    split; [by intros; rewrite lookup_insert_ne|].
    rewrite lookup_insert_eq; cbn. split.
    + intros k' Hk. by rewrite lookup_insert_ne.
    + by rewrite lookup_insert_eq.
Qed.

Lemma ordinary_delete_frame h l k :
  (∀ l', l' ≠ l → (ordinary_delete h l k).2 !! l' = h !! l')
  ∧ (∀ k', k' ≠ k →
       ordinary_get (ordinary_delete h l k).2 l k' = ordinary_get h l k')
  ∧ ((ordinary_delete h l k).1 = true →
       ordinary_get (ordinary_delete h l k).2 l k = VUndef).
Proof.
  unfold ordinary_delete, ordinary_get.
  destruct (h !! l) as [o|] eqn:El; cbn; [|by rewrite El].
  destruct (props o !! k) as [q|] eqn:Ek; cbn; [|by rewrite El, Ek].
  destruct (configurable q); cbn; [|by rewrite El, Ek].
  split; [by intros; rewrite lookup_insert_ne|].
  rewrite lookup_insert_eq; cbn. split.
  - intros k' Hk. by rewrite lookup_delete_ne.
  - by rewrite lookup_delete_eq.
Qed.





(** X3: the callback only observes.  Without a callback no operation emits
    an event, and the result and the heap of a write or a deletion are the
    same with and without one. *)
Theorem callback_only_observes (h : heap) (v : val) (k : key) (x : val) :
  set_val false h v k x = ((set_val true h v k x).1, [])
  ∧ delete_val false h v k = ((delete_val true h v k).1, []).
Proof.
  split.
  - induction v as [| | | | |l|t IH p|w]; cbn [set_val]; try done.
    + by destruct (ordinary_set h l k x).
    + rewrite IH. destruct (set_val true h t k x) as [[r h'] evs]; cbn.
      by destruct r.
    + by case_decide.
  - induction v as [| | | | |l|t IH p|w]; cbn [delete_val]; try done.
    + by destruct (ordinary_delete h l k).
    + rewrite IH. destruct (delete_val true h t k) as [[r h'] evs]; cbn.
      by destruct r.
    + by destruct (ordinary_delete h w k).
Qed.

Lemma get_val_plain_result h v k l :
  k ≠ KStr "value" → get_val h v k = VObj l → ∃ l0, v = VObj l0.
Proof.
  intros Hk. destruct v as [| | | | |l0|t p|w]; cbn; try done.
  - by exists l0.
  - rewrite decide_False by done. by destruct (isObject (get_val h t k)) eqn:E;
      [|intros E'; rewrite E' in E].
  - by rewrite decide_False.
Qed.



(** X5: [ref] builds its wrapper at a fresh location and changes no object
    that was there; of the handle it returns, the key [value] reads the
    initial value, behind a proxy of empty path when it is an object, and
    every other key reads [undefined]. *)
Theorem ref_fresh_handle (h : heap) (value : val) :
  ∃ w,
    (ref h value).1 = VHandle w
    ∧ h !! w = None
    ∧ (∀ l, l ≠ w → (ref h value).2 !! l = h !! l)
    ∧ get_val (ref h value).2 (VHandle w) "value" =
        (if isObject value then VProxy value [] else value)
    ∧ (∀ k, k ≠ KStr "value" →
         get_val (ref h value).2 (VHandle w) k = VUndef)
    ∧ wrapper_ok (ref h value).2 w.
Proof.
  destruct (ref_wrapper_ok h value) as (w & E & Hok & Hfresh & Hget).
  exists w. repeat split; try done.
  - intros l Hl. unfold ref in *.
    destruct (alloc h _) as [w' h'] eqn:Ea. cbn in E. injection E as ->.
    pose proof (alloc_spec h (literal [(KStr "value", wrap value)]))
      as [_ G].
    rewrite Ea in G. cbn in G. subst h'. cbn. by rewrite lookup_insert_ne.
  - intros k Hk. cbn. by rewrite decide_False.
Qed.

(** X6: the handle has no [deleteProperty] trap.  [delete handle.value] on
    a handle that [ref] has just built succeeds without a call of the
    callback, and [handle.value] then reads [undefined]; a later write of
    [handle.value] stores its value again. *)
Theorem handle_delete_is_silent (cb : bool) (h : heap) (value x : val) :
  let r := (ref h value).1 in
  let h1 := (ref h value).2 in
  ∃ h2,
    delete_val cb h1 r "value" = (true, h2, [])
    ∧ get_val h2 r "value" = VUndef
    ∧ get_val (set_val cb h2 r "value" x).1.2 r "value" = wrap x.
Proof.
  intros r h1. subst r h1.
  destruct (ref_wrapper_ok h value) as (w & E & Hok & Hfresh & Hget).
  rewrite E.
  assert ((ref h value).2 !! w =
            Some (literal [(KStr "value", wrap value)])) as Hw.
  { unfold ref in *. destruct (alloc h _) as [w' h'] eqn:Ea.
    cbn in E. injection E as ->.
    pose proof (alloc_spec h (literal [(KStr "value", wrap value)]))
      as [_ G].
    rewrite Ea in G. cbn in G. subst h'. cbn. by rewrite lookup_insert_eq. }
  pose proof (ordinary_delete_wrapper_ok _ w (KStr "value") w Hok) as Hok2.
  destruct (ordinary_delete_frame (ref h value).2 w (KStr "value"))
    as (_ & _ & F3).
  assert ((ordinary_delete (ref h value).2 w (KStr "value")).1 = true) as Hr.
  { unfold ordinary_delete. rewrite Hw, literal_single.
    by rewrite decide_True. }
  exists (ordinary_delete (ref h value).2 w (KStr "value")).2.
  cbn [delete_val get_val set_val].
  destruct (ordinary_delete (ref h value).2 w (KStr "value")) as [b h2] eqn:Ed.
  cbn in *. subst b. rewrite !decide_True by done.
  split; [done|]. split; [by apply F3|]. cbn.
  destruct Hok2 as (o & Ho & He & Hv).
  by destruct (ordinary_set_get h2 w (KStr "value") (wrap x) o Ho He Hv).
Qed.


Lemma set_val_plain_proxy cb h l p k x :
  (set_val cb h (VProxy (VObj l) p) k x).1 = ordinary_set h l k x.
Proof. cbn. by destruct (ordinary_set h l k x). Qed.

Lemma delete_val_plain_proxy cb h l p k :
  (delete_val cb h (VProxy (VObj l) p) k).1 = ordinary_delete h l k.
Proof. cbn. by destruct (ordinary_delete h l k). Qed.

(** X7: a write or a deletion through the proxy of a plain object touches
    that object and that key only: every other object of the heap and
    every other property of the object is as before, whether the operation
    succeeds or not. *)
Theorem proxy_mutation_frame (cb : bool) (h : heap) (l : loc)
    (p : list key) (k : key) (x : val) :
  let hs := (set_val cb h (VProxy (VObj l) p) k x).1.2 in
  let hd := (delete_val cb h (VProxy (VObj l) p) k).1.2 in
  (∀ l', l' ≠ l → hs !! l' = h !! l' ∧ hd !! l' = h !! l')
  ∧ (∀ k', k' ≠ k →
       ordinary_get hs l k' = ordinary_get h l k'
       ∧ ordinary_get hd l k' = ordinary_get h l k').
Proof.
  cbn zeta. rewrite set_val_plain_proxy, delete_val_plain_proxy.
  destruct (ordinary_set_frame h l k x) as (S1 & S2 & _).
  destruct (ordinary_delete_frame h l k) as (D1 & D2 & _).
  split; intros; split; auto.
Qed.

Lemma root_write_stored cb h w x :
  wrapper_ok h w →
  get_val (set_val cb h (VHandle w) "value" x).1.2 (VHandle w) "value"
  = wrap x.
Proof.
  intros (o & Hw & He & Hv). cbn [set_val get_val].
  rewrite !decide_True by done. cbn.
  by destruct (ordinary_set_get h w (KStr "value") (wrap x) o Hw He Hv).
Qed.

(** X8: a value that is already behind a proxy is wrapped again.  After
    [handle.value = handle.value] over an object, the handle holds a proxy
    of the proxy, and a write through it that succeeds calls the callback
    twice: for the inner layer, with the object as target, then for the
    outer layer, with the inner proxy as target. *)
Theorem rewrapped_value_notifies_twice (h : heap) (w l : loc) (k : key)
    (x : val) :
  wrapper_ok h w →
  get_val h (VHandle w) "value" = VProxy (VObj l) [] →
  let inner := VProxy (VObj l) [] in
  let h1 :=
    (set_val true h (VHandle w) "value"
       (get_val h (VHandle w) "value")).1.2 in
  get_val h1 (VHandle w) "value" = VProxy inner []
  ∧ ((ordinary_set h1 l k x).1 = true →
     (set_val true h1 (get_val h1 (VHandle w) "value") k x).2 =
       [mkEvent OpSet [k] (VObj l) (Some x) (ordinary_get h1 l k);
        mkEvent OpSet [k] inner (Some x) (get_val h1 inner k)]).
Proof.
  intros Hok Hval inner h1.
  pose proof (root_write_stored true h w (VProxy (VObj l) []) Hok) as Hst.
  subst h1 inner. rewrite Hval. cbn [wrap isObject] in Hst.
  split; [exact Hst|]. intros Hr. rewrite Hst.
  cbn [set_val get_val].
  destruct (ordinary_set _ l k x) as [r h2]. cbn in Hr. subst r. done.
Qed.

(** X8, witness: the heap of [ref({a: 0})], the wrapper at location 2. *)
Lemma rewrapped_value_notifies_twice_witness :
  let h : heap :=
    {[ 1%positive := literal [(KStr "a", VNum 0)];
       2%positive := literal [(KStr "value", VProxy (VObj 1) [])] ]} in
  get_val
    (set_val true h (VHandle 2) "value" (get_val h (VHandle 2) "value")).1.2
    (VHandle 2) "value"
  = VProxy (VProxy (VObj 1) []) [].
Proof.
  intros h.
  assert (wrapper_ok h 2%positive) as Hok.
  { exists (literal [(KStr "value", VProxy (VObj 1) [])]).
    split; [by vm_compute|]. split; [done|].
    intros p. rewrite literal_single, decide_True by done.
    by intros [= <-]. }
  assert (get_val h (VHandle 2) "value" = VProxy (VObj 1) []) as Hval
    by (vm_compute; reflexivity).
  exact (proj1 (rewrapped_value_notifies_twice h 2%positive 1%positive
                  (KStr "a") (VNum 1) Hok Hval)).
Defined.

(** * Further facts about [reactive] *)

Section RunFacts.

Context {T : Type}.
Implicit Types (r : Reactive T) (s : subscriber T)
  (subs : list (subscriber T)) (v : T) (w : World T) (ops : list (op T)).

Lemma set_value_fields r v :
  _value (set_value r v).1.1 = v
  ∧ subscribers (set_value r v).1.1 = subscribers r.
Proof.
  unfold set_value. cbn.
  by destruct (forEach (subscribers r) v) as [calls []].
Qed.

Lemma run_cons o ops w : run (o :: ops) w = run ops (step w o).
Proof. done. Qed.

(** X9: reading [value] gives the value of the last write, whether that
    write ran to its end or a subscriber threw during it, and the initial
    value when nothing has been written. *)
Theorem value_is_last_written v0 ops :
  get_value T (cell (run ops (init v0))) = default v0 (last (writes ops)).
Proof.
  unfold get_value.
  assert (∀ w, _value (cell (run ops w))
               = default (_value (cell w)) (last (writes ops))) as H.
  { induction ops as [|o ops IH]; intros w; [done|].
    rewrite run_cons, IH.
    destruct o as [v|subs| |dt]; cbn [writes flat_map app step cell].
    - change (flat_map _ ops) with (writes ops).
      destruct (set_value_fields (cell w) v) as [-> _].
      rewrite last_cons. by destruct (last (writes ops)).
    - unfold subscribe. cbn [fst]. by rewrite subscribe_app.
    - done.
    - done. }
  by rewrite H.
Qed.

(** X10: subscribers only accumulate.  After any run, the subscriber list
    is the one before it followed by the functions of every [subscribe]
    call of the run, in call and argument order; no operation removes or
    reorders a subscriber. *)
Theorem subscribers_accumulate ops w :
  subscribers (cell (run ops w)) = subscribers (cell w) ++ subscribed ops.
Proof.
  revert w. induction ops as [|o ops IH]; intros w.
  - cbn. by rewrite app_nil_r.
  - rewrite run_cons, IH.
    destruct o as [v|subs| |dt]; cbn [subscribed flat_map app step cell].
    + by destruct (set_value_fields (cell w) v) as [_ ->].
    + unfold subscribe. cbn [fst]. rewrite subscribe_app. cbn.
      by rewrite <- app_assoc.
    + done.
    + done.
Qed.

Lemma logged_sublist ops w : logged ops w `sublist_of` writes ops.
Proof.
  revert w. induction ops as [|o ops IH]; intros w; [done|].
  cbn [logged writes flat_map].
  destruct o as [v|subs| |dt]; cbn [app]; try apply IH.
  destruct (forallb _ _); cbn [app].
  - apply sublist_skip, IH.
  - apply sublist_cons, IH.
Qed.


Lemma calls_to_app id (tr1 tr2 : list (effect T)) :
  calls_to id (tr1 ++ tr2) = (calls_to id tr1 + calls_to id tr2)%nat.
Proof. unfold calls_to. by rewrite List.filter_app, length_app. Qed.

Lemma calls_to_map id v subs :
  calls_to id (map (call_of v) subs)
  = length (List.filter (λ s, Nat.eqb (sub_id s) id) subs).
Proof.
  unfold calls_to. induction subs as [|s subs IH]; [done|].
  cbn. destruct (Nat.eqb (sub_id s) id); cbn; by rewrite IH.
Qed.

(** X12: subscribers are not de-duplicated.  A write during which no
    subscriber throws calls a function once for each time it was
    registered. *)
Theorem called_once_per_registration r v (id : nat) :
  Forall (λ s, sub_run s v = Returns) (subscribers r) →
  calls_to id (set_value r v).1.2
  = length (List.filter (λ s, Nat.eqb (sub_id s) id) (subscribers r)).
Proof.
  intros Hall. unfold set_value. cbn [subscribers _value _values].
  rewrite forEach_all_return by done. cbn [fst snd].
  change (Store v :: ?l) with ([Store v] ++ l).
  rewrite !calls_to_app, calls_to_map. cbn. lia.
Qed.

End RunFacts.

(** X12, witness: the same function registered twice is called twice. *)
Lemma called_once_per_registration_witness :
  calls_to 1 (set_value (subscribe (subscribe (reactive 0) [quiet 1]).1
                           [quiet 1]).1 5).1.2 = 2%nat.
Proof.
  assert (Forall (λ s, sub_run s 5 = Returns)
            (subscribers (subscribe (subscribe (reactive 0) [quiet 1]).1
                            [quiet 1]).1)) as H.
  { repeat constructor. }
  exact (called_once_per_registration
           (subscribe (subscribe (reactive 0) [quiet 1]).1 [quiet 1]).1
           5 1%nat H).
Defined.

(** * Facts about the price state and the polling loop *)

Section PriceFacts.

Context {F : Type} `{EqDecision F}.
Implicit Types (s : Server F) (d : priceData F) (a b p q : number F)
  (inputs : list (input F)) (out : list (output F)).

(** X13: once a price is recorded, [isUpdated] is false for exactly the
    same number again: it is true for every other number, and always true
    for [NaN], also straight after [NaN] was recorded.  Before any price
    is recorded it is true for every number. *)
Theorem isUpdated_after_update (last : option (number F)) p q :
  (isUpdated (updateLastPrice last p) q = false
   ↔ ∃ x, p = Num x ∧ q = Num x)
  ∧ isUpdated None q = true.
Proof.
  split; [|done]. unfold isUpdated, updateLastPrice, strict_ne.
  destruct q as [|y], p as [|x]; split; try done;
    try (by intros (z & ? & ?)).
  - intros Hb. apply bool_decide_eq_false in Hb.
    exists x. split; [done|]. f_equal.
    by destruct (decide (y = x)) as [|Hne]; [|destruct Hb].
  - intros (z & [= ->] & [= ->]). apply bool_decide_eq_false. by intros ?.
Qed.

Lemma updates_app out1 out2 : updates (out1 ++ out2) = updates out1 ++ updates out2.
Proof. unfold updates. by rewrite flat_map_app. Qed.

Lemma updates_sends (f : nat → output F) (l : list nat) :
  (∀ c, ∃ m, f c = Send c m) → updates (map f l) = [].
Proof.
  intros Hf. induction l as [|c l IH]; [done|].
  cbn. destruct (Hf c) as [m ->]. exact IH.
Qed.

Lemma serve_updates s i :
  updates (serve s i).2 = [] ∧ lastPrice (serve s i).1 = lastPrice s
  ∨ ∃ p, updates (serve s i).2 = [p] ∧ lastPrice (serve s i).1 = Some p
         ∧ isUpdated (lastPrice s) p = true.
Proof.
  destruct i as [ws|ws|[d|] is_open];
    cbn [serve on_connection on_close on_interval]; try by left.
  destruct (isUpdated (lastPrice s) (price d)) eqn:E; [|by left].
  right. exists (price d). cbn [fst snd lastPrice updateLastPrice].
  rewrite updates_app.
  rewrite updates_sends by (intros c; by eexists). done.
Qed.

(** X14: the server never announces the same price twice in a row.  Over
    any sequence of connections, closings and ticks, each price it
    announces differs ([!==]) from the one announced before it, the first
    from the price recorded at the start; the price recorded at the end is
    the last one announced. *)
Theorem announced_prices_change s inputs :
  chain (λ a b, strict_ne b a = true)
        (option_list (lastPrice s) ++ updates (serve_all s inputs).2)
  ∧ lastPrice (serve_all s inputs).1
    = last (option_list (lastPrice s) ++ updates (serve_all s inputs).2).
Proof.
  revert s. induction inputs as [|i inputs IH]; intros s.
  - cbn. rewrite app_nil_r. by destruct (lastPrice s).
  - cbn [serve_all].
    destruct (serve s i) as [s1 out1] eqn:E1.
    specialize (IH s1).
    destruct (serve_all s1 inputs) as [s2 out2] eqn:E2. cbn [fst snd] in *.
    rewrite updates_app.
    pose proof (serve_updates s i) as Hs. rewrite E1 in Hs.
    cbn [fst snd] in Hs.
    destruct Hs as [[-> Hl]|(p & -> & Hl & Hu)]; rewrite Hl in IH.
    + done.
    + change (option_list (Some p) ++ ?l) with (p :: l) in IH.
      destruct IH as [IH1 IH2]. change ([p] ++ ?l) with (p :: l).
      destruct (lastPrice s) as [p0|].
      * change (option_list (Some p0) ++ ?l) with (p0 :: l).
        split; [|by rewrite last_cons_cons].
        cbn [chain]. split; [exact Hu|exact IH1].
      * done.
Qed.

Lemma sent_to_app ws out1 out2 :
  sent_to ws (out1 ++ out2) = sent_to ws out1 ++ sent_to ws out2.
Proof. unfold sent_to. by rewrite flat_map_app. Qed.

Lemma sent_to_broadcast ws (m : message F) (l : list nat) :
  sent_to ws (map (λ client, Send client m) l)
  = map (λ _, m) (List.filter (λ client, Nat.eqb client ws) l).
Proof.
  unfold sent_to. induction l as [|c l IH]; [done|]. cbn.
  destruct (Nat.eqb c ws); cbn; by rewrite IH.
Qed.

Lemma filter_absent (ws : nat) (f : nat → bool) (l : list nat) :
  ws ∉ l → List.filter (λ client, Nat.eqb client ws) (List.filter f l) = [].
Proof.
  induction l as [|c l IH]; [done|]. intros Hn.
  apply not_elem_of_cons in Hn as [Hne Hn]. cbn.
  destruct (f c); cbn; [|by apply IH].
  destruct (Nat.eqb_spec c ws); [congruence|by apply IH].
Qed.

Lemma serve_absent ws s i :
  ws ∉ clients s → i ≠ Connection ws →
  sent_to ws (serve s i).2 = [] ∧ ws ∉ clients (serve s i).1.
Proof.
  intros Hn Hi. destruct i as [ws'|ws'|[d|] is_open];
    cbn [serve on_connection on_close on_interval].
  - split; [done|]. cbn [fst clients]. apply not_elem_of_app. split; [done|].
    apply not_elem_of_cons. split; [congruence|apply not_elem_of_nil].
  - split; [done|]. cbn [fst clients]. intros Hin.
    apply list_elem_of_In, filter_In in Hin as [Hin _].
    by apply Hn, list_elem_of_In.
  - destruct (isUpdated _ _); cbn [fst snd clients]; [|done].
    rewrite sent_to_app, sent_to_broadcast, filter_absent by done. done.
  - done.
Qed.

(** X15: a client whose socket has closed is sent nothing more.  After
    the [close] of a socket, whatever follows, as long as that socket does
    not connect again, no message goes to it, even if it still counts as
    open when a tick ends. *)
Theorem closed_client_gets_nothing s (ws : nat) inputs :
  Forall (λ i, i ≠ Connection ws) inputs →
  sent_to ws (serve_all s (Disconnect ws :: inputs)).2 = [].
Proof.
  intros Hin. cbn [serve_all serve on_close].
  set (s1 := mkServer _ (lastPrice s)).
  assert (ws ∉ clients s1) as Hn.
  { subst s1. cbn [clients]. intros Hmem.
    apply list_elem_of_In, filter_In in Hmem as [_ Hb].
    by rewrite Nat.eqb_refl in Hb. }
  clearbody s1.
  assert (sent_to ws (serve_all s1 inputs).2 = []) as Hs.
  { revert s1 Hn. induction Hin as [|i inputs Hi _ IH]; intros s1 Hn; [done|].
    cbn [serve_all].
    destruct (serve_absent ws s1 i Hn Hi) as [Hs1 Hn1].
    destruct (serve s1 i) as [s2 out1]. specialize (IH s2 Hn1).
    destruct (serve_all s2 inputs) as [s3 out2]. cbn [fst snd] in *.
    by rewrite sent_to_app, Hs1, IH. }
  destruct (serve_all s1 inputs) as [s2 out2]. cbn [fst snd] in *.
  by rewrite sent_to_app, Hs.
Qed.

(** X16: what a tick sends.  With every client connected once, a tick
    whose price is an update sends one message, of type [btc_price] and
    carrying what was fetched, to each client that is open and none to the
    others; a tick whose price is not an update, or whose fetch failed,
    sends nothing and leaves the recorded price as it is. *)
Theorem tick_sends_once_to_open_clients s (fetched : option (priceData F))
    (is_open : nat → bool) (ws : nat) :
  NoDup (clients s) →
  match fetched with
  | Some d =>
      if isUpdated (lastPrice s) (price d)
      then sent_to ws (on_interval fetched is_open s).2
           = (if bool_decide (ws ∈ clients s) && is_open ws
              then [Message "btc_price" d] else [])
           ∧ lastPrice (on_interval fetched is_open s).1 = Some (price d)
      else on_interval fetched is_open s = (s, [LogNotUpdated])
  | None => on_interval fetched is_open s = (s, [LogError])
  end.
Proof.
  intros Hnd. destruct fetched as [d|]; [|done]. cbn [on_interval].
  destruct (isUpdated (lastPrice s) (price d)); [|done]. cbn [fst snd].
  split; [|done].
  rewrite sent_to_app, sent_to_broadcast.
  change (sent_to ws [LogUpdated d]) with (@nil (message F)).
  rewrite app_nil_r.
  induction Hnd as [|c l Hc Hnd IH]; [done|]. cbn.
  destruct (is_open c) eqn:Eo; cbn.
  - destruct (Nat.eqb_spec c ws) as [->|Hne]; cbn.
    + rewrite filter_absent by done. rewrite bool_decide_eq_true_2
        by (apply elem_of_cons; by left). by rewrite Eo.
    + rewrite IH. destruct (decide (ws ∈ l)) as [Hl|Hl].
      * rewrite !bool_decide_eq_true_2; [done|by apply elem_of_cons; right|done].
      * rewrite !bool_decide_eq_false_2; [done| |done].
        apply not_elem_of_cons. split; [congruence|done].
  - rewrite IH. destruct (decide (ws ∈ l)) as [Hl|Hl].
    + rewrite !bool_decide_eq_true_2; [done|by apply elem_of_cons; right|done].
    + rewrite (bool_decide_eq_false_2 (ws ∈ l)) by done. cbn.
      destruct (decide (ws = c)) as [->|Hne].
      * rewrite Eo. by rewrite andb_false_r.
      * rewrite bool_decide_eq_false_2; [done|].
        apply not_elem_of_cons. split; done.
Qed.

End PriceFacts.

(** X15, witness: a tick after the close, the socket still counting as
    open. *)
Lemma closed_client_gets_nothing_witness :
  sent_to 1
    (serve_all (mkServer [1%nat; 2%nat] None)
       [Disconnect 1;
        Poll (Some (PriceData "BTCUSDT" (Num 5) "t")) (λ _, true)]).2
  = [].
Proof.
  assert (Forall (λ i : input Z, i ≠ Connection 1)
            [Poll (Some (PriceData "BTCUSDT" (Num 5) "t")) (λ _, true)]) as H.
  { repeat constructor. discriminate. }
  exact (closed_client_gets_nothing (mkServer [1%nat; 2%nat] None) 1%nat _ H).
Defined.

(** X16, witness: two clients, the second one open, and a first price. *)
Lemma tick_sends_once_to_open_clients_witness :
  sent_to 2
    (on_interval (Some (PriceData "BTCUSDT" (Num 5) "t")) (Nat.eqb 2)
       (mkServer [1%nat; 2%nat] None)).2
  = [Message "btc_price" (PriceData "BTCUSDT" (Num 5) "t")].
Proof.
  assert (NoDup [1%nat; 2%nat]) as H.
  { repeat constructor; [|apply not_elem_of_nil].
    apply not_elem_of_cons. split; [discriminate|apply not_elem_of_nil]. }
  exact (proj1 (tick_sends_once_to_open_clients
                  (mkServer [1%nat; 2%nat] None)
                  (Some (PriceData "BTCUSDT" (Num (5 : Z)) "t"))
                  (Nat.eqb 2) 2%nat H)).
Defined.
